(** * A shallow embedding of the syslog server ([src/main.rs])

    Text is modelled at the level of Rust [char]s: a [&str] / [String] is a
    [list N] of Unicode scalar values.  The program only ever searches for,
    slices at, or escapes ASCII characters ([<], [>], [\n], [,], double quote), so
    byte indices of the Rust code and character indices here pick out the
    same sub-strings, and every byte index the code uses is a character
    boundary. *)

From Stdlib Require Import String Ascii List NArith ZArith Lia Bool.
Import ListNotations.
Open Scope N_scope.

(** ** Characters and text *)

Definition text := list N.

(** Conversion of an ASCII string literal into [text]. *)
Definition txt (s : string) : text := map N_of_ascii (list_ascii_of_string s).

Definition LT_CH : N := 60.      (* '<' *)
Definition GT_CH : N := 62.      (* '>' *)
Definition NL_CH : N := 10.      (* '\n' *)
Definition CR_CH : N := 13.      (* '\r' *)
Definition QUOTE_CH : N := 34.   (* double quote *)
Definition COMMA_CH : N := 44.   (* ',' *)
Definition PLUS_CH : N := 43.    (* '+' *)

(** ** Outcomes of a Rust function: [Ok], [Err] (the [?] operator), or a
    panic (here: a string slice with out-of-order bounds). *)

Inductive res (A : Type) : Type :=
| ROk (a : A)
| RErr (msg : string)
| RPanic.
Arguments ROk {A} a.
Arguments RErr {A} msg.
Arguments RPanic {A}.

Definition rbind {A B} (m : res A) (k : A -> res B) : res B :=
  match m with
  | ROk a => k a
  | RErr e => RErr e
  | RPanic => RPanic
  end.

Notation "x <- m ;; k" := (rbind m (fun x => k))
  (at level 61, m at next level, right associativity).

(** [Option::ok_or]. *)
Definition ok_or {A} (o : option A) (e : string) : res A :=
  match o with Some a => ROk a | None => RErr e end.

(** ** [str::find] for a single character: index of the first occurrence. *)

Fixpoint find (c : N) (s : text) : option nat :=
  match s with
  | [] => None
  | x :: r => if x =? c then Some 0%nat else option_map S (find c r)
  end.

(** ** String slicing [s[a..b]]: panics when [a > b] or [b > len s]. *)

Definition slice (s : text) (a b : nat) : res text :=
  if (b <? a)%nat then RPanic
  else if (length s <? b)%nat then RPanic
  else ROk (firstn (b - a) (skipn a s)).

(** ** [<u8 as FromStr>::from_str] (core [from_str_radix] with radix 10).
    Empty input and a lone sign are errors; a leading [+] is accepted
    (a leading [-] is an invalid digit for an unsigned type); every further
    character must be an ASCII digit and the value must stay below 256. *)

Definition is_digit (c : N) : bool := (48 <=? c) && (c <=? 57).

Fixpoint u8_digits (acc : N) (s : text) : option N :=
  match s with
  | [] => Some acc
  | c :: r =>
      if is_digit c then
        let v := acc * 10 + (c - 48) in
        if v <=? 255 then u8_digits v r else None
      else None
  end.

Definition parse_u8 (s : text) : option N :=
  match s with
  | [] => None
  | c :: r =>
      if c =? PLUS_CH then
        match r with [] => None | _ => u8_digits 0 r end
      else u8_digits 0 s
  end.

(** The [IntErrorKind] a failing [from_str] reports: [Empty] for the empty
    string; otherwise the scan stops at the first character that is not a
    digit ([InvalidDigit], also for a lone [+]) or at the first digit that
    takes the value past 255 ([PosOverflow]). *)
Inductive IntErrorKind := Empty | InvalidDigit | PosOverflow.

Fixpoint u8_digits_error (acc : N) (s : text) : IntErrorKind :=
  match s with
  | [] => InvalidDigit
  | c :: r =>
      if is_digit c then
        let v := acc * 10 + (c - 48) in
        if v <=? 255 then u8_digits_error v r else PosOverflow
      else InvalidDigit
  end.

Definition u8_error (s : text) : IntErrorKind :=
  match s with
  | [] => Empty
  | c :: r =>
      if c =? PLUS_CH then
        match r with [] => InvalidDigit | _ => u8_digits_error 0 r end
      else u8_digits_error 0 s
  end.

(** [Display] of [ParseIntError]. *)
Definition int_error_msg (k : IntErrorKind) : string :=
  match k with
  | Empty => "cannot parse integer from empty string"
  | InvalidDigit => "invalid digit found in string"
  | PosOverflow => "number too large to fit in target type"
  end.

(** ** [Display] of an unsigned integer: its decimal digits. *)

Fixpoint dec_go (fuel : nat) (n : N) (acc : text) : text :=
  match fuel with
  | O => acc
  | S f =>
      let acc' := (48 + n mod 10) :: acc in
      if n <? 10 then acc' else dec_go f (n / 10) acc'
  end.

Definition dec (n : N) : text := dec_go (S (N.size_nat n)) n [].

(** ** [LogHandler::parse_priority] *)

Definition parse_priority (log_data : text) : res (N * N) :=
  pri_start <- ok_or (find LT_CH log_data) "No priority found" ;;
  pri_end <- ok_or (find GT_CH log_data) "Malformed priority" ;;
  sub <- slice log_data (S pri_start) pri_end ;;
  priority <- ok_or (parse_u8 sub) (int_error_msg (u8_error sub)) ;;
  ROk (N.shiftr priority 3, N.land priority 7).

(** ** Record builder: [log_data.replace('\n', "").trim()] *)

(** [str::replace] of a single character by the empty string. *)
Definition remove_newlines (s : text) : text :=
  filter (fun c => negb (c =? NL_CH)) s.

(** [char::is_whitespace]: the Unicode White_Space property. *)
Definition is_whitespace (c : N) : bool :=
  ((9 <=? c) && (c <=? 13)) || (c =? 32) || (c =? 133) || (c =? 160)
  || (c =? 5760) || ((8192 <=? c) && (c <=? 8202))
  || (c =? 8232) || (c =? 8233) || (c =? 8239) || (c =? 8287)
  || (c =? 12288).

Fixpoint trim_start (s : text) : text :=
  match s with
  | [] => []
  | c :: r => if is_whitespace c then trim_start r else s
  end.

Definition trim_end (s : text) : text := rev (trim_start (rev s)).

(** [str::trim]. *)
Definition trim (s : text) : text := trim_end (trim_start s).

(** ** Timestamps: [Local::now().format("%Y-%m-%d %H:%M:%S%.3f")] *)

Record DateTime := {
  year : N; month : N; day : N;
  hour : N; minute : N; second : N; millis : N
}.

(** Zero-padding of a decimal number to a minimum width. *)
Definition pad (width : nat) (n : N) : text :=
  let d := dec n in repeat 48 (width - length d) ++ d.

Definition format_time (t : DateTime) : text :=
  pad 4 (year t) ++ [45] ++ pad 2 (month t) ++ [45] ++ pad 2 (day t) ++ [32]
  ++ pad 2 (hour t) ++ [58] ++ pad 2 (minute t) ++ [58] ++ pad 2 (second t)
  ++ [46] ++ pad 3 (millis t).

(** ** [SysLogEntry] *)

Record SysLogEntry := {
  event_time : text;
  device_ip : text;
  syslog : text;
  severity : N;
  facility : N
}.

(** The record built in [handle_log] once the priority is parsed. *)
Definition build_entry (now : DateTime) (source_ip log_data : text)
    (facility severity : N) : SysLogEntry :=
  {| event_time := format_time now;
     device_ip := source_ip;
     syslog := trim (remove_newlines log_data);
     severity := severity;
     facility := facility |}.

(** ** CSV serialization ([csv::Writer] with its defaults: delimiter [,],
    quote style [Necessary], [double_quote(true)], terminator [\n]).
    A field is quoted when it contains the delimiter, the quote, CR or LF;
    quotes inside a quoted field are doubled.  A record that wrote no byte
    at all is written as two quotes. *)

Definition requires_quote (c : N) : bool :=
  (c =? COMMA_CH) || (c =? QUOTE_CH) || (c =? CR_CH) || (c =? NL_CH).

Definition escape (f : text) : text :=
  flat_map (fun c => if c =? QUOTE_CH then [QUOTE_CH; QUOTE_CH] else [c]) f.

Definition csv_field (f : text) : text :=
  if existsb requires_quote f then QUOTE_CH :: escape f ++ [QUOTE_CH] else f.

Fixpoint join_fields (fs : list text) : text :=
  match fs with
  | [] => []
  | [f] => csv_field f
  | f :: r => csv_field f ++ COMMA_CH :: join_fields r
  end.

Definition csv_record (fs : list text) : text :=
  match join_fields fs with
  | [] => [QUOTE_CH; QUOTE_CH; NL_CH]
  | body => body ++ [NL_CH]
  end.

(** Serde serializes the struct's fields in declaration order; the
    header row holds the field names. *)
Definition entry_fields (e : SysLogEntry) : list text :=
  [event_time e; device_ip e; syslog e; dec (severity e); dec (facility e)].

Definition header_fields : list text :=
  [txt "event_time"; txt "device_ip"; txt "syslog"; txt "severity";
   txt "facility"].

(** ** The output file: [None] when absent, else its contents. *)

Definition store := option text.

Definition contents (st : store) : text :=
  match st with None => [] | Some f => f end.

(** [LogHandler::write_to_csv]: open for append (creating the file),
    decide [needs_headers] from the size at open, serialize, flush. *)
Definition write_to_csv (e : SysLogEntry) (st : store) : store :=
  let file := contents st in
  let needs_headers := (length file =? 0)%nat in
  Some (file ++ (if needs_headers then csv_record header_fields else [])
             ++ csv_record (entry_fields e)).

(** What the file system does during one call of [write_to_csv]: every
    step succeeds; [OpenOptions::open] fails (no file is created); the file
    is opened, hence created, and [metadata] fails; or [serialize] /
    [flush] fails after the first [k] characters of the output (the header
    row when needed, then the data row) have reached the file.  The [msg]
    is the [io::Error] the [?] returns.  (Text is modelled by characters,
    so a failure inside the UTF-8 bytes of one character is not
    represented.) *)
Inductive io_outcome :=
| IoOk
| OpenFails (msg : string)
| MetadataFails (msg : string)
| WriteFails (k : nat) (msg : string).

(** The text one successful [write_to_csv] appends. *)
Definition csv_output (e : SysLogEntry) (st : store) : text :=
  (if (length (contents st) =? 0)%nat then csv_record header_fields else [])
  ++ csv_record (entry_fields e).

(** [LogHandler::write_to_csv] with its [?] error paths. *)
Definition write_to_csv_io (io : io_outcome) (e : SysLogEntry) (st : store)
    : res unit * store :=
  match io with
  | IoOk => (ROk tt, write_to_csv e st)
  | OpenFails msg => (RErr msg, st)
  | MetadataFails msg => (RErr msg, Some (contents st))
  | WriteFails k msg => (RErr msg, Some (contents st ++ firstn k (csv_output e st)))
  end.

(** ** Metrics counters and the output file, threaded through
    [LogHandler::handle_log]. *)

Record Server := {
  received : nat;
  written : nat;
  output : store
}.

Definition incr_received (s : Server) : Server :=
  {| received := S (received s); written := written s; output := output s |}.

(** The part of [handle_log] before the write: parse the priority (the
    [?] returns early on failure) and build the entry. *)
Definition make_entry (now : DateTime) (source_ip log_data : text)
    : res SysLogEntry :=
  fs <- parse_priority log_data ;;
  ROk (build_entry now source_ip log_data (fst fs) (snd fs)).

(** [LogHandler::handle_log]; [now] is [Local::now()] and [io] what the
    file system does during its [write_to_csv]; [syslog_written_total] is
    incremented only after the write returned [Ok]. *)
Definition handle_log (now : DateTime) (io : io_outcome) (source_ip log_data : text)
    (s : Server) : res unit * Server :=
  let s1 := incr_received s in
  match make_entry now source_ip log_data with
  | ROk entry =>
      let (r, out) := write_to_csv_io io entry (output s1) in
      match r with
      | ROk _ => (ROk tt, {| received := received s1; written := S (written s1);
                             output := out |})
      | RErr e => (RErr e, {| received := received s1; written := written s1;
                              output := out |})
      | RPanic => (RPanic, {| received := received s1; written := written s1;
                              output := out |})
      end
  | RErr e => (RErr e, s1)
  | RPanic => (RPanic, s1)
  end.

(** A fixed local time, used to evaluate [handle_log] on sample inputs. *)
Definition sample_time : DateTime :=
  {| year := 2024; month := 3; day := 7; hour := 9; minute := 5; second := 1;
     millis := 42 |}.

Definition empty_server : Server := {| received := 0; written := 0; output := None |}.

(** ** Sequential writes: [write_to_csv] applied to entries one after
    another, starting from a given file. *)

Definition write_all (es : list SysLogEntry) (st : store) : store :=
  fold_left (fun acc e => write_to_csv e acc) es st.

(** ** Re-reading the file with [csv::Reader] and its defaults (delimiter
    [,], quote with doubling, any of CR, LF, CRLF as terminator, empty lines
    skipped, first row as header).  This is the reader of the csv crate, the
    library [write_to_csv] serializes with; it is written here as the
    state machine the crate documents. *)

Definition is_term (c : N) : bool := (c =? CR_CH) || (c =? NL_CH).

Inductive RState := StartRecord | StartField | InField | InQuoted | QuoteInQuoted.

Definition finish (st : RState) (acc : text) (fields : list text)
    : list (list text) :=
  match st with
  | StartRecord => []
  | StartField => [fields ++ [[]]]
  | _ => [fields ++ [acc]]
  end.

Fixpoint read_go (st : RState) (acc : text) (fields : list text) (inp : text)
    {struct inp} : list (list text) :=
  match inp with
  | [] => finish st acc fields
  | c :: r =>
      match st with
      | StartRecord | StartField =>
          if (match st with StartRecord => is_term c | _ => false end)
          then read_go StartRecord [] [] r
          else if c =? QUOTE_CH then read_go InQuoted [] fields r
          else if c =? COMMA_CH then read_go StartField [] (fields ++ [[]]) r
          else if is_term c then (fields ++ [[]]) :: read_go StartRecord [] [] r
          else read_go InField [c] fields r
      | InField =>
          if c =? COMMA_CH then read_go StartField [] (fields ++ [acc]) r
          else if is_term c then (fields ++ [acc]) :: read_go StartRecord [] [] r
          else read_go InField (acc ++ [c]) fields r
      | InQuoted =>
          if c =? QUOTE_CH then read_go QuoteInQuoted acc fields r
          else read_go InQuoted (acc ++ [c]) fields r
      | QuoteInQuoted =>
          if c =? QUOTE_CH then read_go InQuoted (acc ++ [QUOTE_CH]) fields r
          else if c =? COMMA_CH then read_go StartField [] (fields ++ [acc]) r
          else if is_term c then (fields ++ [acc]) :: read_go StartRecord [] [] r
          else read_go InField (acc ++ [c]) fields r
      end
  end.

Definition parse_csv (inp : text) : list (list text) :=
  read_go StartRecord [] [] inp.

Fixpoint list_text_eqb (a b : list text) : bool :=
  match a, b with
  | [], [] => true
  | x :: a', y :: b' =>
      (if list_eq_dec N.eq_dec x y then true else false) && list_text_eqb a' b'
  | _, _ => false
  end.

(** Deserializing one row into a [SysLogEntry] (the integer columns with
    [<u8 as FromStr>]). *)
Definition decode_entry (row : list text) : option SysLogEntry :=
  match row with
  | [et; ip; msg; sev; fac] =>
      match parse_u8 sev, parse_u8 fac with
      | Some s, Some f =>
          Some {| event_time := et; device_ip := ip; syslog := msg;
                  severity := s; facility := f |}
      | _, _ => None
      end
  | _ => None
  end.

Fixpoint decode_rows (rows : list (list text)) : option (list SysLogEntry) :=
  match rows with
  | [] => Some []
  | r :: rs =>
      match decode_entry r, decode_rows rs with
      | Some e, Some es => Some (e :: es)
      | _, _ => None
      end
  end.

(** Reading the whole file back: the first row must be the header this
    program writes (columns are then matched by position); an empty file
    holds no entries. *)
Definition read_store (inp : text) : option (list SysLogEntry) :=
  match parse_csv inp with
  | [] => Some []
  | h :: rows => if list_text_eqb h header_fields then decode_rows rows else None
  end.

(** ** The ingestion queue: [tokio::sync::mpsc::channel(queue_size)].

    The receiver task holds the datagrams it still has to hand over
    ([pending], in arrival order); [send(..).await] completes only while the
    buffer holds fewer than [cap] items and otherwise stays pending; the
    processor loop's [rx.recv().await] takes the oldest buffered item. *)

Module Channel.

Definition item := (text * text)%type.

Record Sys := {
  pending : list item;
  buffer : list item;
  delivered : list item
}.

Section Bounded.
Variable cap : nat.

Definition init (items : list item) : Sys :=
  {| pending := items; buffer := []; delivered := [] |}.

(** One completed [tx.send(x).await]; [None] while the send is pending. *)
Definition send_step (s : Sys) : option Sys :=
  match pending s with
  | [] => None
  | x :: p =>
      if (length (buffer s) <? cap)%nat
      then Some {| pending := p; buffer := buffer s ++ [x];
                   delivered := delivered s |}
      else None
  end.

(** One completed [rx.recv().await]. *)
Definition recv_step (s : Sys) : option Sys :=
  match buffer s with
  | [] => None
  | x :: b => Some {| pending := pending s; buffer := b;
                      delivered := delivered s ++ [x] |}
  end.

Inductive step : Sys -> Sys -> Prop :=
| step_send s s' : send_step s = Some s' -> step s s'
| step_recv s s' : recv_step s = Some s' -> step s s'.

Inductive reachable (items : list item) : Sys -> Prop :=
| reach_init : reachable items (init items)
| reach_step s s' : reachable items s -> step s s' -> reachable items s'.

(** Zero or more steps. *)
Inductive steps : Sys -> Sys -> Prop :=
| steps_refl s : steps s s
| steps_cons s1 s2 s3 : step s1 s2 -> steps s2 s3 -> steps s1 s3.

End Bounded.

End Channel.

(** ** Processing messages one after another

    The processor loop of [main] spawns one [handle_log] task per dequeued
    item; when the tasks run one after another (each one finishing before
    the next starts), the server state is threaded through them in queue
    order.  Each message carries the local time at which it is handled and
    what the file system does during its write. *)

Definition message := (DateTime * io_outcome * text * text)%type.

Definition process_all (msgs : list message) (s : Server) : Server :=
  fold_left (fun acc m => let '(now, io, ip, data) := m in
                          snd (handle_log now io ip data acc)) msgs s.

(** The entries built from the messages whose priority parses and whose
    write succeeds. *)
Definition stored (msgs : list message) : list SysLogEntry :=
  flat_map (fun m => let '(now, io, ip, data) := m in
                     match make_entry now ip data, io with
                     | ROk e, IoOk => [e]
                     | _, _ => []
                     end) msgs.

(** A write that failed after part of its output reached the file. *)
Definition partial_write (m : message) : bool :=
  let '(_, io, _, _) := m in
  match io with WriteFails _ _ => true | _ => false end.

(** ** The receiver task: [String::from_utf8(buf[..size].to_vec())]

    [from_utf8] accepts exactly the well-formed UTF-8 byte sequences
    (no overlong forms, no surrogates, nothing above U+10FFFF) and
    yields their scalar values. *)

Definition cont_byte (b : N) : bool := (128 <=? b) && (b <=? 191).

Fixpoint from_utf8 (bs : list N) : option text :=
  match bs with
  | [] => Some []
  | b1 :: r1 =>
      if b1 <? 128 then option_map (cons b1) (from_utf8 r1)
      else match r1 with
      | [] => None
      | b2 :: r2 =>
          if (194 <=? b1) && (b1 <=? 223) then
            if cont_byte b2
            then option_map (cons ((b1 - 192) * 64 + (b2 - 128))) (from_utf8 r2)
            else None
          else match r2 with
          | [] => None
          | b3 :: r3 =>
              if (224 <=? b1) && (b1 <=? 239) then
                let lo := if b1 =? 224 then 160 else 128 in
                let hi := if b1 =? 237 then 159 else 191 in
                if (lo <=? b2) && (b2 <=? hi) && cont_byte b3
                then option_map
                       (cons ((b1 - 224) * 4096 + (b2 - 128) * 64 + (b3 - 128)))
                       (from_utf8 r3)
                else None
              else match r3 with
              | [] => None
              | b4 :: r4 =>
                  if (240 <=? b1) && (b1 <=? 244) then
                    let lo := if b1 =? 240 then 144 else 128 in
                    let hi := if b1 =? 244 then 143 else 191 in
                    if (lo <=? b2) && (b2 <=? hi) && cont_byte b3 && cont_byte b4
                    then option_map
                           (cons ((b1 - 240) * 262144 + (b2 - 128) * 4096
                                  + (b3 - 128) * 64 + (b4 - 128)))
                           (from_utf8 r4)
                    else None
                  else None
              end
          end
      end
  end.

(** The UTF-8 encoding of a [char] ([char::encode_utf8]), and of a text:
    the bytes a sender puts in a datagram. *)
Definition encode_char (c : N) : list N :=
  if c <? 128 then [c]
  else if c <? 2048 then [192 + c / 64; 128 + c mod 64]
  else if c <? 65536 then [224 + c / 4096; 128 + (c / 64) mod 64; 128 + c mod 64]
  else [240 + c / 262144; 128 + (c / 4096) mod 64; 128 + (c / 64) mod 64;
        128 + c mod 64].

Definition to_utf8 (t : text) : list N := flat_map encode_char t.

(** A Unicode scalar value: what a Rust [char] can hold. *)
Definition scalar (c : N) : Prop := c < 55296 \/ (57344 <= c /\ c <= 1114111).

(** What [socket.recv_from(&mut buf)] returns in one iteration; [addr]
    is the sender's IP address as [addr.ip().to_string()] prints it. *)
Inductive RecvResult :=
| Datagram (addr : text) (bytes : list N)
| WouldBlock
| SocketError.

Definition BUF_SIZE : nat := N.to_nat 8192.

(** One iteration of the receiver loop: the items it hands to [tx.send].
    A datagram longer than the buffer is cut to its first [BUF_SIZE]
    bytes; one that is not UTF-8 is dropped; [WouldBlock] sleeps and other
    errors are logged, neither sends anything. *)
Definition receive (r : RecvResult) : list (text * text) :=
  match r with
  | Datagram addr bytes =>
      match from_utf8 (firstn BUF_SIZE bytes) with
      | Some data => [(addr, data)]
      | None => []
      end
  | WouldBlock => []
  | SocketError => []
  end.

(** * Properties *)

(** ** Helper lemmas: list surgery and finite checks over [u8] *)

Lemma skipn_app_exact {A} (l1 l2 : list A) : skipn (length l1) (l1 ++ l2) = l2.
Proof. induction l1; simpl; auto. Qed.

Lemma firstn_app_exact {A} (l1 l2 : list A) : firstn (length l1) (l1 ++ l2) = l1.
Proof. induction l1; simpl; f_equal; auto. Qed.

Lemma find_head (c : N) (r : text) : find c (c :: r) = Some 0%nat.
Proof. simpl. now rewrite N.eqb_refl. Qed.

Lemma find_app_absent (c : N) (p r : text) :
  forallb (fun x => negb (x =? c)) p = true ->
  find c (p ++ r) = option_map (fun i => (length p + i)%nat) (find c r).
Proof.
  induction p as [|x p IH]; simpl; intros H.
  - destruct (find c r); reflexivity.
  - apply andb_prop in H as [Hx Hp]. apply negb_true_iff in Hx.
    rewrite Hx, IH by exact Hp. destruct (find c r); reflexivity.
Qed.

(** A boolean property checked on the 256 values of [u8] holds on all of them. *)
Lemma u8_check (P : N -> bool) :
  forallb P (map N.of_nat (seq 0 256)) = true -> forall n, n <= 255 -> P n = true.
Proof.
  intros H n Hn. rewrite forallb_forall in H. apply H.
  apply in_map_iff. exists (N.to_nat n). split; [apply N2Nat.id|].
  apply in_seq. lia.
Qed.

Definition dec_ok (n : N) : bool :=
  match parse_u8 (dec n) with Some m => m =? n | None => false end
  && negb (existsb requires_quote (dec n))
  && forallb (fun c => negb (c =? GT_CH)) (dec n)
  && negb (match dec n with [] => true | _ => false end).

Lemma dec_ok_u8 (n : N) : n <= 255 -> dec_ok n = true.
Proof. apply u8_check. vm_compute. reflexivity. Qed.

Lemma parse_u8_dec (n : N) : n <= 255 -> parse_u8 (dec n) = Some n.
Proof.
  intros H. apply dec_ok_u8 in H. unfold dec_ok in H.
  destruct (parse_u8 (dec n)) as [m|]; [|discriminate].
  repeat (apply andb_prop in H as [H ?]). apply N.eqb_eq in H. now subst.
Qed.

Lemma dec_no_quote (n : N) : n <= 255 -> existsb requires_quote (dec n) = false.
Proof.
  intros H. apply dec_ok_u8 in H. unfold dec_ok in H.
  repeat (apply andb_prop in H as [H ?]). now apply negb_true_iff.
Qed.

Lemma dec_no_gt (n : N) : n <= 255 ->
  forallb (fun c => negb (c =? GT_CH)) (dec n) = true.
Proof.
  intros H. apply dec_ok_u8 in H. unfold dec_ok in H.
  repeat (apply andb_prop in H as [H ?]). assumption.
Qed.

Lemma dec_nonempty (n : N) : n <= 255 -> dec n <> [].
Proof.
  intros H. apply dec_ok_u8 in H. unfold dec_ok in H.
  repeat (apply andb_prop in H as [H ?]). destruct (dec n); [discriminate|].
  discriminate.
Qed.

Lemma fields_of_u8 (p : N) : p <= 255 ->
  N.shiftr p 3 <= 31 /\ N.land p 7 <= 7.
Proof.
  intros H. apply (u8_check (fun p => (N.shiftr p 3 <=? 31) && (N.land p 7 <=? 7)))
    in H; [|vm_compute; reflexivity].
  apply andb_prop in H as [H1 H2]. split; now apply N.leb_le.
Qed.

Lemma u8_digits_le (acc : N) (s : text) (p : N) :
  acc <= 255 -> u8_digits acc s = Some p -> p <= 255.
Proof.
  revert acc. induction s as [|c s IH]; simpl; intros acc Hacc H.
  - injection H as <-. exact Hacc.
  - destruct (is_digit c); [|discriminate].
    destruct (acc * 10 + (c - 48) <=? 255) eqn:E; [|discriminate].
    apply N.leb_le in E. exact (IH _ E H).
Qed.

Lemma parse_u8_le (s : text) (p : N) : parse_u8 s = Some p -> p <= 255.
Proof.
  unfold parse_u8. destruct s as [|c r]; [discriminate|].
  destruct (c =? PLUS_CH).
  - destruct r; [discriminate|]. apply u8_digits_le. lia.
  - apply u8_digits_le. lia.
Qed.

(** ** C1 *)

(** C1: whenever [parse_priority] succeeds, the integer parsed between the
    first [<] and the first [>] is a [u8] (0..255), the facility is that
    integer shifted right by 3 and the severity is its low three bits; hence
    severity is in 0..7 and facility in 0..31. *)
Theorem parse_priority_fields (s : text) (facility severity : N) :
  parse_priority s = ROk (facility, severity) ->
  exists pri a b sub,
    find LT_CH s = Some a /\ find GT_CH s = Some b /\
    slice s (S a) b = ROk sub /\ parse_u8 sub = Some pri /\
    pri <= 255 /\
    facility = N.shiftr pri 3 /\ severity = N.land pri 7 /\
    severity <= 7 /\ facility <= 31.
Proof.
  unfold parse_priority, rbind, ok_or.
  destruct (find LT_CH s) as [a|] eqn:Ha; [|discriminate].
  destruct (find GT_CH s) as [b|] eqn:Hb; [|discriminate].
  destruct (slice s (S a) b) as [sub| |] eqn:Hs; try discriminate.
  destruct (parse_u8 sub) as [pri|] eqn:Hp; [|discriminate].
  intros H. injection H as <- <-.
  pose proof (parse_u8_le _ _ Hp) as Hle.
  destruct (fields_of_u8 _ Hle) as [Hf Hs'].
  exists pri, a, b, sub. repeat split; auto.
Qed.

Lemma parse_priority_fields_witness :
  parse_priority (txt "<13>test message") = ROk (1, 5) /\
  exists pri a b sub,
    find LT_CH (txt "<13>test message") = Some a /\
    find GT_CH (txt "<13>test message") = Some b /\
    slice (txt "<13>test message") (S a) b = ROk sub /\ parse_u8 sub = Some pri /\
    pri <= 255 /\ 1 = N.shiftr pri 3 /\ 5 = N.land pri 7 /\ 5 <= 7 /\ 1 <= 31.
Proof.
  split; [reflexivity|].
  apply parse_priority_fields. reflexivity.
Defined.

(** ** C10 *)

(** C10: the [<] need not open the message: for any prefix [p] free of [<]
    and [>], any suffix [s] and any [n] in 0..255, the text
    [p ++ "<" ++ dec n ++ ">" ++ s] parses to facility [n >> 3] and
    severity [n & 7]. *)
Theorem parse_priority_after_prefix (p s : text) (n : N) :
  forallb (fun c => negb (c =? LT_CH) && negb (c =? GT_CH)) p = true ->
  n <= 255 ->
  parse_priority (p ++ [LT_CH] ++ dec n ++ [GT_CH] ++ s)
  = ROk (N.shiftr n 3, N.land n 7).
Proof.
  intros Hp Hn.
  assert (HpLT : forallb (fun x => negb (x =? LT_CH)) p = true).
  { rewrite forallb_forall in *. intros x Hx. specialize (Hp x Hx).
    now apply andb_prop in Hp as [? _]. }
  assert (HpGT : forallb (fun x => negb (x =? GT_CH)) p = true).
  { rewrite forallb_forall in *. intros x Hx. specialize (Hp x Hx).
    now apply andb_prop in Hp as [_ ?]. }
  set (d := dec n).
  assert (Hlt : find LT_CH (p ++ [LT_CH] ++ d ++ [GT_CH] ++ s) = Some (length p)).
  { rewrite find_app_absent by exact HpLT.
    change ([LT_CH] ++ d ++ [GT_CH] ++ s) with (LT_CH :: d ++ [GT_CH] ++ s).
    rewrite find_head. simpl. f_equal. lia. }
  assert (Hgt : find GT_CH (p ++ [LT_CH] ++ d ++ [GT_CH] ++ s)
                = Some (length p + S (length d))%nat).
  { rewrite find_app_absent by exact HpGT. simpl.
    change (LT_CH =? GT_CH) with false.
    rewrite find_app_absent by exact (dec_no_gt n Hn).
    change ([GT_CH] ++ s) with (GT_CH :: s). rewrite find_head. simpl.
    f_equal. lia. }
  unfold parse_priority, ok_or. rewrite Hlt, Hgt. cbn [rbind].
  unfold slice.
  replace (length p + S (length d) <? S (length p))%nat with false
    by (symmetry; apply Nat.ltb_ge; lia).
  replace (length (p ++ [LT_CH] ++ d ++ [GT_CH] ++ s) <? length p + S (length d))%nat
    with false
    by (symmetry; apply Nat.ltb_ge; rewrite !length_app; simpl; lia).
  replace (length p + S (length d) - S (length p))%nat with (length d) by lia.
  replace (p ++ [LT_CH] ++ d ++ [GT_CH] ++ s) with ((p ++ [LT_CH]) ++ d ++ [GT_CH] ++ s)
    by (rewrite <- app_assoc; reflexivity).
  replace (S (length p)) with (length (p ++ [LT_CH])) by (rewrite length_app; simpl; lia).
  rewrite skipn_app_exact, firstn_app_exact. cbn [rbind].
  unfold d. rewrite parse_u8_dec by exact Hn. reflexivity.
Qed.

Lemma parse_priority_after_prefix_witness :
  forallb (fun c => negb (c =? LT_CH) && negb (c =? GT_CH)) (txt "Oct 11 host ") = true /\
  (191 <= 255) /\
  parse_priority (txt "Oct 11 host " ++ [LT_CH] ++ dec 191 ++ [GT_CH] ++ txt "msg")
  = ROk (N.shiftr 191 3, N.land 191 7).
Proof.
  split; [reflexivity|]. split; [lia|].
  apply parse_priority_after_prefix; [reflexivity | lia].
Defined.

(** ** C2 *)

(** C2 (as stated, refuted): for [<13>test message] the message column is
    not [test message]: the text is stored whole, priority prefix included. *)
Lemma handle_log_message_keeps_priority :
  match make_entry sample_time (txt "10.0.0.5") (txt "<13>test message") with
  | ROk e => syslog e <> txt "test message"
  | _ => False
  end.
Proof. vm_compute. intros H. discriminate H. Qed.

Lemma format_time_nonempty (t : DateTime) : format_time t <> [].
Proof.
  unfold format_time. intros H. apply (f_equal (@length N)) in H.
  rewrite !length_app in H. simpl in H. lia.
Qed.

(** C2 (amended): at any local time, the record [handle_log] builds for
    [<13>test message] from [10.0.0.5] (the entry it passes to
    [write_to_csv]) has facility 1, severity 5, message column
    [<13>test message] (the newline-stripped, trimmed text, unchanged
    here), device_ip [10.0.0.5] and a non-empty event_time. *)
Theorem handle_log_sample (now : DateTime) :
  exists e,
    make_entry now (txt "10.0.0.5") (txt "<13>test message") = ROk e /\
    facility e = 1 /\ severity e = 5 /\
    syslog e = txt "<13>test message" /\ device_ip e = txt "10.0.0.5" /\
    event_time e <> [].
Proof.
  exists (build_entry now (txt "10.0.0.5") (txt "<13>test message") 1 5).
  repeat split; try reflexivity.
  apply format_time_nonempty.
Qed.

(** ** C4 *)

(** C4: the closing [>] is searched from the start of the text, not after
    the [<]; when a [>] comes before the first [<] the slice
    [log_data[pri_start + 1..pri_end]] has its start past its end and
    panics instead of returning an error. *)
Theorem parse_priority_gt_before_lt_panics :
  parse_priority (txt "host> <13>msg") = RPanic.
Proof. reflexivity. Qed.

(** ** C5 *)

(** C5: when [parse_priority] does not succeed, [handle_log] counts the
    message as received once, does not count it as written, and leaves the
    output file as it was, whatever the file system would do. *)
Theorem handle_log_parse_failure (now : DateTime) (io : io_outcome)
    (source_ip log_data : text) (s : Server) :
  (forall fs, parse_priority log_data <> ROk fs) ->
  let '(r, s') := handle_log now io source_ip log_data s in
  received s' = S (received s) /\ written s' = written s /\
  output s' = output s /\ r <> ROk tt.
Proof.
  intros H. unfold handle_log, make_entry.
  destruct (parse_priority log_data) as [fs| e |] eqn:E.
  - exfalso. exact (H fs eq_refl).
  - simpl. repeat split. discriminate.
  - simpl. repeat split. discriminate.
Qed.

Lemma handle_log_parse_failure_witness :
  (forall fs, parse_priority (txt "no priority here") <> ROk fs) /\
  let '(r, s') := handle_log sample_time IoOk (txt "10.0.0.5")
                    (txt "no priority here") empty_server in
  received s' = S (received empty_server) /\ written s' = written empty_server /\
  output s' = output empty_server /\ r <> ROk tt.
Proof.
  assert (H : forall fs, parse_priority (txt "no priority here") <> ROk fs)
    by (intros fs; vm_compute; discriminate).
  split; [exact H|].
  exact (handle_log_parse_failure sample_time IoOk (txt "10.0.0.5")
           (txt "no priority here") empty_server H).
Defined.

(** ** C6 *)

Definition starts_non_ws (s : text) : Prop :=
  match s with [] => True | c :: _ => is_whitespace c = false end.

Lemma trim_start_split (s : text) :
  exists pre, s = pre ++ trim_start s /\ forallb is_whitespace pre = true /\
              starts_non_ws (trim_start s).
Proof.
  induction s as [|c r IH]; simpl.
  - exists []. repeat split.
  - destruct (is_whitespace c) eqn:Hc.
    + destruct IH as (pre & Hr & Hpre & Hh). exists (c :: pre).
      simpl. rewrite Hc, Hpre. rewrite <- Hr. auto.
    + exists []. simpl. auto.
Qed.

Lemma forallb_rev_ws (l : text) :
  forallb is_whitespace (rev l) = forallb is_whitespace l.
Proof.
  induction l as [|c l IH]; simpl; auto.
  rewrite forallb_app, IH. simpl. rewrite andb_true_r, andb_comm. reflexivity.
Qed.

Lemma trim_end_split (s : text) :
  exists suf, s = trim_end s ++ suf /\ forallb is_whitespace suf = true /\
              starts_non_ws (rev (trim_end s)).
Proof.
  destruct (trim_start_split (rev s)) as (pre & Hs & Hpre & Hh).
  exists (rev pre). unfold trim_end. rewrite rev_involutive.
  split; [|split; [rewrite forallb_rev_ws; exact Hpre | exact Hh]].
  rewrite <- rev_app_distr, <- Hs, rev_involutive. reflexivity.
Qed.

Lemma trim_split (s : text) :
  exists pre suf,
    s = pre ++ trim s ++ suf /\
    forallb is_whitespace pre = true /\ forallb is_whitespace suf = true /\
    starts_non_ws (trim s) /\ starts_non_ws (rev (trim s)).
Proof.
  destruct (trim_start_split s) as (pre & Hs & Hpre & Hh).
  destruct (trim_end_split (trim_start s)) as (suf & Hu & Hsuf & Hl).
  exists pre, suf. unfold trim. repeat split; auto.
  - rewrite <- Hu. exact Hs.
  - destruct (trim_end (trim_start s)) as [|c t] eqn:E; simpl; auto.
    rewrite Hu in Hh. exact Hh.
Qed.

(** C6: the message column of the built entry is the datagram text with
    every [\n] removed and then trimmed; it is a contiguous piece of the
    newline-free text, cut only between whitespace ends (it neither starts
    nor ends with whitespace), and it contains no [\n]. *)
Theorem build_entry_message (now : DateTime) (source_ip log_data : text)
    (facility severity : N) :
  let m := syslog (build_entry now source_ip log_data facility severity) in
  m = trim (filter (fun c => negb (c =? NL_CH)) log_data) /\
  (exists pre suf,
     filter (fun c => negb (c =? NL_CH)) log_data = pre ++ m ++ suf /\
     forallb is_whitespace pre = true /\ forallb is_whitespace suf = true) /\
  starts_non_ws m /\ starts_non_ws (rev m) /\
  ~ In NL_CH m.
Proof.
  cbn zeta. simpl syslog. unfold remove_newlines.
  set (t := filter (fun c => negb (c =? NL_CH)) log_data).
  destruct (trim_split t) as (pre & suf & Ht & Hpre & Hsuf & Hh & Hl).
  split; [reflexivity|]. split; [exists pre, suf; auto|].
  split; [exact Hh|]. split; [exact Hl|].
  intros Hin.
  assert (Hin' : In NL_CH t) by (rewrite Ht; apply in_or_app; right;
                                 apply in_or_app; left; exact Hin).
  unfold t in Hin'. apply filter_In in Hin' as [_ Hn].
  rewrite N.eqb_refl in Hn. discriminate.
Qed.

(** ** C7 *)

Lemma csv_record_nonempty (fs : list text) : csv_record fs <> [].
Proof.
  unfold csv_record. destruct (join_fields fs) as [|c r]; [discriminate|].
  simpl. discriminate.
Qed.

Lemma write_to_csv_empty (e : SysLogEntry) (st : store) :
  contents st = [] ->
  write_to_csv e st = Some (csv_record header_fields ++ csv_record (entry_fields e)).
Proof. unfold write_to_csv. intros H. rewrite H. reflexivity. Qed.

Lemma write_to_csv_nonempty (e : SysLogEntry) (st : store) :
  contents st <> [] ->
  write_to_csv e st = Some (contents st ++ csv_record (entry_fields e)).
Proof.
  unfold write_to_csv. intros H.
  destruct (contents st) as [|c r]; [contradiction|]. reflexivity.
Qed.

Lemma write_all_append (es : list SysLogEntry) (st : store) :
  contents st <> [] ->
  contents (write_all es st)
  = contents st ++ flat_map (fun e => csv_record (entry_fields e)) es.
Proof.
  revert st. induction es as [|e es IH]; intros st H; simpl.
  - rewrite app_nil_r. reflexivity.
  - rewrite (write_to_csv_nonempty e st H).
    rewrite IH; simpl.
    + rewrite ?app_assoc. reflexivity.
    + intros H'. apply app_eq_nil in H' as [H' _]. contradiction.
Qed.

Lemma write_all_from_empty (es : list SysLogEntry) (st : store) :
  contents st = [] ->
  contents (write_all es st)
  = match es with
    | [] => []
    | _ => csv_record header_fields
           ++ flat_map (fun e => csv_record (entry_fields e)) es
    end.
Proof.
  intros H. destruct es as [|e es]; [simpl; exact H|].
  simpl. rewrite write_all_append.
  - rewrite (write_to_csv_empty e st H). simpl.
    rewrite ?app_assoc. reflexivity.
  - rewrite (write_to_csv_empty e st H). cbn [contents].
    intros H'. apply app_eq_nil in H' as [H' _].
    exact (csv_record_nonempty _ H').
Qed.

(** C7: one call of [write_to_csv] always leaves a file (created when
    absent); on an empty or absent file it writes the header row followed
    by the data row; on a non-empty file it keeps the contents and appends
    only the data row. *)
Theorem write_to_csv_single (e : SysLogEntry) (st : store) :
  (exists f, write_to_csv e st = Some f) /\
  (contents st = [] ->
   write_to_csv e st = Some (csv_record header_fields ++ csv_record (entry_fields e))) /\
  (contents st <> [] ->
   write_to_csv e st = Some (contents st ++ csv_record (entry_fields e))).
Proof.
  unfold write_to_csv. split; [eexists; reflexivity|]. split.
  - intros H. rewrite H. reflexivity.
  - intros H. destruct (contents st) as [|c r]; [contradiction|]. reflexivity.
Qed.

(** ** C3 *)

(** The row [write_to_csv] writes for the sample datagram. *)
Definition sample_entry : SysLogEntry :=
  build_entry sample_time (txt "10.0.0.5") (txt "<13>test message") 1 5.

(** C3 (as stated, refuted): the fields are not all quoted (quoting is
    only applied where needed) and the message column is named [syslog]. *)
Lemma write_to_csv_sample_unquoted :
  contents (write_to_csv sample_entry None)
  = csv_record header_fields
    ++ txt "2024-03-07 09:05:01.042,10.0.0.5,<13>test message,5,1" ++ [NL_CH] /\
  hd_error (csv_record (entry_fields sample_entry)) <> Some QUOTE_CH /\
  nth 2 header_fields [] <> txt "message".
Proof.
  split; [vm_compute; reflexivity|].
  split; vm_compute; discriminate.
Qed.


(** C3 (amended): writing entries one after another into an empty or
    absent file yields the header row [event_time,device_ip,syslog,
    severity,facility] once, first, followed by one row per entry in
    order; each row lists event_time, device_ip, syslog, severity, facility
    separated by commas and ends with a newline, a field being
    double-quoted (inner quotes doubled) only when it contains a comma, a
    double quote, CR or LF. *)
Theorem write_all_layout (es : list SysLogEntry) (st : store) :
  contents st = [] ->
  contents (write_all es st)
  = match es with
    | [] => []
    | _ => csv_record header_fields
           ++ flat_map (fun e => csv_record (entry_fields e)) es
    end.
Proof. exact (write_all_from_empty es st). Qed.

Lemma write_all_layout_witness :
  contents None = [] /\
  contents (write_all [sample_entry; sample_entry] None)
  = csv_record header_fields
    ++ flat_map (fun e => csv_record (entry_fields e)) [sample_entry; sample_entry].
Proof.
  split; [reflexivity|].
  exact (write_all_layout [sample_entry; sample_entry] None eq_refl).
Defined.

(** ** C8: reading back what was written *)

Lemma read_quoted_body (f acc : text) (fields : list text) (r : text) :
  read_go InQuoted acc fields (escape f ++ QUOTE_CH :: r)
  = read_go QuoteInQuoted (acc ++ f) fields r.
Proof.
  revert acc. induction f as [|c f IH]; intros acc.
  - simpl. rewrite app_nil_r. reflexivity.
  - cbn [escape flat_map]. destruct (N.eqb_spec c QUOTE_CH) as [Hc|Hc].
    + subst c. cbn [app read_go]. rewrite N.eqb_refl. fold (escape f).
      rewrite IH, <- app_assoc. reflexivity.
    + cbn [app read_go]. apply N.eqb_neq in Hc. rewrite Hc. fold (escape f).
      rewrite IH, <- app_assoc. reflexivity.
Qed.

Lemma read_plain_body (f acc : text) (fields : list text) (r : text) :
  existsb requires_quote f = false ->
  read_go InField acc fields (f ++ r) = read_go InField (acc ++ f) fields r.
Proof.
  revert acc. induction f as [|c f IH]; intros acc H.
  - simpl. rewrite app_nil_r. reflexivity.
  - simpl in H. apply orb_false_iff in H as [Hc Hf].
    unfold requires_quote in Hc.
    apply orb_false_iff in Hc as [Hc Hnl]. apply orb_false_iff in Hc as [Hc Hcr].
    apply orb_false_iff in Hc as [Hcomma Hq].
    cbn [app read_go]. rewrite Hcomma.
    unfold is_term. rewrite Hcr, Hnl. cbn [orb].
    rewrite IH by exact Hf. rewrite <- app_assoc. reflexivity.
Qed.

(** What follows a field: the next field, or the end of the record. *)
Definition after_field (c : N) (fields : list text) (f : text) (r : text)
    : list (list text) :=
  if c =? COMMA_CH then read_go StartField [] (fields ++ [f]) r
  else (fields ++ [f]) :: read_go StartRecord [] [] r.

Lemma read_field (f : text) (c : N) (fields : list text) (r : text) :
  c = COMMA_CH \/ c = NL_CH ->
  read_go StartField [] fields (csv_field f ++ c :: r) = after_field c fields f r.
Proof.
  intros Hc. unfold csv_field, after_field.
  destruct (existsb requires_quote f) eqn:Hq.
  - cbn [app read_go]. rewrite N.eqb_refl. rewrite <- app_assoc. cbn [app].
    rewrite read_quoted_body. cbn [app read_go].
    destruct Hc as [-> | ->]; reflexivity.
  - destruct f as [|x f].
    + destruct Hc as [-> | ->]; reflexivity.
    + simpl in Hq. apply orb_false_iff in Hq as [Hx Hf].
      unfold requires_quote in Hx.
      apply orb_false_iff in Hx as [Hx Hnl]. apply orb_false_iff in Hx as [Hx Hcr].
      apply orb_false_iff in Hx as [Hcomma Hquote].
      cbn [app read_go]. rewrite Hquote, Hcomma. unfold is_term.
      rewrite Hcr, Hnl. cbn [orb].
      rewrite read_plain_body by exact Hf.
      destruct Hc as [-> | ->]; reflexivity.
Qed.

Lemma read_join (fs : list text) (fields : list text) (r : text) :
  fs <> [] ->
  read_go StartField [] fields (join_fields fs ++ NL_CH :: r)
  = (fields ++ fs) :: read_go StartRecord [] [] r.
Proof.
  revert fields. induction fs as [|f fs IH]; intros fields H; [congruence|].
  destruct fs as [|g fs].
  - cbn [join_fields]. rewrite read_field by (right; reflexivity). reflexivity.
  - change (join_fields (f :: g :: fs))
      with (csv_field f ++ COMMA_CH :: join_fields (g :: fs)).
    rewrite <- app_assoc. cbn [app].
    rewrite read_field by (left; reflexivity). unfold after_field.
    rewrite N.eqb_refl. rewrite IH by discriminate.
    rewrite <- app_assoc. reflexivity.
Qed.

Lemma read_start_record (c : N) (r : text) :
  is_term c = false ->
  read_go StartRecord [] [] (c :: r) = read_go StartField [] [] (c :: r).
Proof. intros H. cbn [read_go]. rewrite H. reflexivity. Qed.

Lemma csv_field_head (f : text) (c : N) (r : text) :
  csv_field f = c :: r -> is_term c = false.
Proof.
  unfold csv_field. destruct (existsb requires_quote f) eqn:Hq.
  - intros H. injection H as <- _. reflexivity.
  - intros ->. simpl in Hq. apply orb_false_iff in Hq as [Hx _].
    unfold requires_quote in Hx.
    apply orb_false_iff in Hx as [Hx Hnl]. apply orb_false_iff in Hx as [_ Hcr].
    unfold is_term. now rewrite Hcr, Hnl.
Qed.

Lemma join_head (fs : list text) (c : N) (r : text) :
  join_fields fs = c :: r -> is_term c = false.
Proof.
  destruct fs as [|f [|g fs]]; cbn [join_fields].
  - discriminate.
  - apply csv_field_head.
  - destruct (csv_field f) as [|x y] eqn:E.
    + simpl. intros H. injection H as <- _. reflexivity.
    + simpl. intros H. injection H as <- _. exact (csv_field_head _ _ _ E).
Qed.

Lemma csv_field_nil (f : text) : csv_field f = [] -> f = [].
Proof.
  unfold csv_field. destruct (existsb requires_quote f); [discriminate|auto].
Qed.

Lemma read_record (fs : list text) (r : text) :
  fs <> [] ->
  read_go StartRecord [] [] (csv_record fs ++ r)
  = fs :: read_go StartRecord [] [] r.
Proof.
  intros Hfs. unfold csv_record. destruct (join_fields fs) as [|c t] eqn:J.
  - destruct fs as [|f [|g fs]]; [congruence| |].
    + cbn [join_fields] in J. apply csv_field_nil in J. subst f.
      reflexivity.
    + cbn [join_fields] in J. apply app_eq_nil in J as [_ J]. discriminate.
  - change (((c :: t) ++ [NL_CH]) ++ r) with (c :: (t ++ [NL_CH]) ++ r).
    rewrite read_start_record by exact (join_head _ _ _ J).
    rewrite <- app_assoc. cbn [app].
    change (c :: t ++ NL_CH :: r) with ((c :: t) ++ NL_CH :: r).
    rewrite <- J. rewrite read_join by exact Hfs. reflexivity.
Qed.

Lemma read_rows (es : list SysLogEntry) :
  read_go StartRecord [] [] (flat_map (fun e => csv_record (entry_fields e)) es)
  = map entry_fields es.
Proof.
  induction es as [|e es IH]; [reflexivity|].
  cbn [flat_map map]. rewrite read_record by discriminate. now rewrite IH.
Qed.

Lemma decode_entry_fields (e : SysLogEntry) :
  severity e <= 255 -> facility e <= 255 -> decode_entry (entry_fields e) = Some e.
Proof.
  intros Hs Hf. unfold decode_entry, entry_fields.
  rewrite !parse_u8_dec by assumption. destruct e; reflexivity.
Qed.

Lemma decode_rows_fields (es : list SysLogEntry) :
  Forall (fun e => severity e <= 255 /\ facility e <= 255) es ->
  decode_rows (map entry_fields es) = Some es.
Proof.
  induction 1 as [|e es [Hs Hf] _ IH]; [reflexivity|].
  cbn [map decode_rows]. now rewrite decode_entry_fields, IH.
Qed.

(** C8: entries written one after another into an empty or absent file
    (severity and facility being [u8]s) are read back by the CSV reader,
    header row first, as exactly the same entries in the same order, with
    every text field identical, whatever commas, double quotes or line
    breaks it holds. *)
Theorem read_store_roundtrip (es : list SysLogEntry) (st : store) :
  contents st = [] ->
  Forall (fun e => severity e <= 255 /\ facility e <= 255) es ->
  read_store (contents (write_all es st)) = Some es.
Proof.
  intros Hst Hes. rewrite (write_all_from_empty es st Hst).
  destruct es as [|e es']; [reflexivity|].
  unfold read_store, parse_csv.
  rewrite read_record by discriminate. rewrite read_rows.
  change (list_text_eqb header_fields header_fields) with true.
  apply decode_rows_fields. exact Hes.
Qed.

(** An entry whose message holds a comma and double quotes. *)
Definition quoted_entry : SysLogEntry :=
  build_entry sample_time (txt "10.0.0.5")
    (txt "<13>a, " ++ [QUOTE_CH] ++ txt "b" ++ [QUOTE_CH] ++ txt " c") 1 5.

Lemma read_store_roundtrip_witness :
  contents None = [] /\
  Forall (fun e => severity e <= 255 /\ facility e <= 255)
    [quoted_entry; sample_entry] /\
  read_store (contents (write_all [quoted_entry; sample_entry] None))
  = Some [quoted_entry; sample_entry].
Proof.
  assert (H : Forall (fun e => severity e <= 255 /\ facility e <= 255)
                [quoted_entry; sample_entry]).
  { repeat constructor; vm_compute; discriminate. }
  split; [reflexivity|]. split; [exact H|].
  exact (read_store_roundtrip [quoted_entry; sample_entry] None eq_refl H).
Defined.

(** ** C9: the ingestion queue *)

Lemma channel_invariant (cap : nat) (items : list Channel.item) (s : Channel.Sys) :
  Channel.reachable cap items s ->
  items = Channel.delivered s ++ Channel.buffer s ++ Channel.pending s /\
  (length (Channel.buffer s) <= cap)%nat.
Proof.
  induction 1 as [|s s' _ [IHi IHl] Hstep].
  - split; [reflexivity | simpl; lia].
  - destruct Hstep as [s s' H | s s' H].
    + unfold Channel.send_step in H.
      destruct (Channel.pending s) as [|x p] eqn:Ep; [discriminate|].
      destruct (length (Channel.buffer s) <? cap)%nat eqn:El; [|discriminate].
      injection H as <-. apply Nat.ltb_lt in El. cbn.
      split; [|rewrite length_app; simpl; lia].
      rewrite IHi, <- app_assoc. reflexivity.
    + unfold Channel.recv_step in H.
      destruct (Channel.buffer s) as [|x b] eqn:Eb; [discriminate|].
      injection H as <-. cbn. simpl in IHl.
      split; [|lia].
      rewrite IHi, <- app_assoc. reflexivity.
Qed.

(** C9: for the bounded channel of capacity [cap], in every state reached
    from the datagrams [items] waiting to be sent: nothing is lost or
    reordered (what the consumer took, then what is buffered, then what is
    still waiting, is [items] in order), the buffer never exceeds [cap];
    with [cap] items buffered a further send cannot complete (the producer
    stays suspended), and once the consumer takes an item a waiting send can
    complete. *)
Theorem channel_no_drop_fifo (cap : nat) (items : list Channel.item)
    (s : Channel.Sys) :
  Channel.reachable cap items s ->
  items = Channel.delivered s ++ Channel.buffer s ++ Channel.pending s /\
  (length (Channel.buffer s) <= cap)%nat /\
  (length (Channel.buffer s) = cap -> Channel.send_step cap s = None) /\
  (forall s', Channel.recv_step s = Some s' -> Channel.pending s' <> [] ->
   exists s'', Channel.send_step cap s' = Some s'').
Proof.
  intros Hr. destruct (channel_invariant cap items s Hr) as [Hi Hl].
  split; [exact Hi|]. split; [exact Hl|]. split.
  - intros Hfull. unfold Channel.send_step.
    destruct (Channel.pending s); [reflexivity|].
    rewrite Hfull, Nat.ltb_irrefl. reflexivity.
  - intros s' Hrecv Hp. unfold Channel.recv_step in Hrecv.
    destruct (Channel.buffer s) as [|x b] eqn:Eb; [discriminate|].
    injection Hrecv as <-. unfold Channel.send_step.
    cbn [Channel.pending Channel.buffer] in *.
    destruct (Channel.pending s) as [|y p]; [contradiction|].
    simpl in Hl. replace (length b <? cap)%nat with true
      by (symmetry; apply Nat.ltb_lt; lia).
    eexists; reflexivity.
Qed.

Definition sample_items : list Channel.item :=
  [(txt "10.0.0.5", txt "<13>a"); (txt "10.0.0.6", txt "<14>b")].

(** The state after the first send on a queue of capacity 1: the buffer
    is full and the second datagram waits. *)
Definition sent_one : Channel.Sys :=
  {| Channel.pending := skipn 1 sample_items; Channel.buffer := firstn 1 sample_items;
     Channel.delivered := [] |}.

Lemma sent_one_reachable : Channel.reachable 1 sample_items sent_one.
Proof.
  apply (Channel.reach_step 1 sample_items (Channel.init sample_items));
    [apply Channel.reach_init | apply Channel.step_send; reflexivity].
Qed.

Lemma channel_no_drop_fifo_witness :
  Channel.reachable 1 sample_items sent_one /\
  length (Channel.buffer sent_one) = 1%nat /\
  (exists s', Channel.recv_step sent_one = Some s' /\ Channel.pending s' <> []) /\
  sample_items = Channel.delivered sent_one ++ Channel.buffer sent_one
                 ++ Channel.pending sent_one /\
  (length (Channel.buffer sent_one) <= 1)%nat /\
  (length (Channel.buffer sent_one) = 1%nat -> Channel.send_step 1 sent_one = None) /\
  (forall s', Channel.recv_step sent_one = Some s' -> Channel.pending s' <> [] ->
   exists s'', Channel.send_step 1 s' = Some s'').
Proof.
  split; [exact sent_one_reachable|]. split; [reflexivity|]. split.
  - eexists. split; [reflexivity | discriminate].
  - exact (channel_no_drop_fifo 1 sample_items sent_one sent_one_reachable).
Defined.

(** * Further properties of the program *)

(** ** The priority parser: errors, panics, accepted numbers *)

Lemma find_some (c : N) (s : text) (i : nat) :
  find c s = Some i -> nth_error s i = Some c /\ (i < length s)%nat.
Proof.
  revert i. induction s as [|x s IH]; simpl; intros i H; [discriminate|].
  destruct (N.eqb_spec x c) as [->|Hx].
  - injection H as <-. simpl. split; [reflexivity | lia].
  - destruct (find c s) as [j|] eqn:E; [|discriminate].
    injection H as <-. destruct (IH j eq_refl) as [H1 H2].
    simpl. split; [exact H1 | lia].
Qed.

Lemma find_none (c : N) (s : text) : find c s = None <-> ~ In c s.
Proof.
  induction s as [|x s IH]; simpl.
  - split; auto.
  - destruct (N.eqb_spec x c) as [->|Hx].
    + split; [discriminate | intros H; exfalso; apply H; left; reflexivity].
    + destruct (find c s) as [j|] eqn:E; simpl; split; intros H.
      * discriminate.
      * exfalso. apply H. right.
        destruct (find_some c s j E) as [Hn _]. eapply nth_error_In. exact Hn.
      * intros [H'|H']; [contradiction|]. apply IH in H'; auto.
      * reflexivity.
Qed.

(** [parse_priority] panics exactly when both delimiters occur and the
    first [>] comes before the first [<]; on every other text it returns
    [Ok] or an error. *)
Theorem parse_priority_panic_iff (s : text) :
  parse_priority s = RPanic <->
  exists a b, find LT_CH s = Some a /\ find GT_CH s = Some b /\ (b < a)%nat.
Proof.
  unfold parse_priority, ok_or.
  destruct (find LT_CH s) as [a|] eqn:Ea;
    [|split; [discriminate | intros (a & b & H & _); discriminate]].
  destruct (find GT_CH s) as [b|] eqn:Eb;
    [|split; [discriminate | intros (a' & b' & _ & H & _); discriminate]].
  destruct (find_some _ _ _ Ea) as [Na La].
  destruct (find_some _ _ _ Eb) as [Nb Lb].
  assert (Hab : a <> b) by (intros ->; rewrite Na in Nb; discriminate).
  cbn [rbind]. unfold slice.
  replace (length s <? b)%nat with false by (symmetry; apply Nat.ltb_ge; lia).
  destruct (Nat.ltb_spec b (S a)) as [Hlt|Hge].
  - split; [intros _ | reflexivity].
    exists a, b. split; [reflexivity|]. split; [reflexivity|]. lia.
  - cbn [rbind]. split.
    + destruct (parse_u8 _); discriminate.
    + intros (a' & b' & Ha' & Hb' & H). injection Ha' as <-.
      injection Hb' as <-. lia.
Qed.

(** The value of a string of decimal digits, read left to right. *)
Definition digits_value (acc : N) (ds : text) : N :=
  fold_left (fun v c => v * 10 + (c - 48)) ds acc.

Lemma digits_value_ge (acc : N) (ds : text) : acc <= digits_value acc ds.
Proof.
  revert acc. induction ds as [|c ds IH]; intros acc; simpl; [lia|].
  specialize (IH (acc * 10 + (c - 48))). lia.
Qed.

Lemma u8_digits_value (acc : N) (ds : text) :
  acc <= 255 ->
  u8_digits acc ds
  = if forallb is_digit ds && (digits_value acc ds <=? 255)
    then Some (digits_value acc ds) else None.
Proof.
  revert acc. induction ds as [|c ds IH]; intros acc Hacc; simpl.
  - replace (acc <=? 255) with true by (symmetry; apply N.leb_le; exact Hacc).
    reflexivity.
  - destruct (is_digit c); simpl; [|reflexivity].
    destruct (N.leb_spec (acc * 10 + (c - 48)) 255) as [Hle|Hgt].
    + apply IH. exact Hle.
    + pose proof (digits_value_ge (acc * 10 + (c - 48)) ds).
      replace (digits_value (acc * 10 + (c - 48)) ds <=? 255) with false
        by (symmetry; apply N.leb_gt; lia).
      rewrite andb_false_r. reflexivity.
Qed.

(** [<u8 as FromStr>] accepts exactly an optional [+] followed by a
    non-empty run of ASCII digits (leading zeros allowed) whose value is at
    most 255, and returns that value. *)
Theorem parse_u8_iff (s : text) (v : N) :
  parse_u8 s = Some v <->
  exists ds, (s = ds \/ s = PLUS_CH :: ds) /\ ds <> [] /\
             forallb is_digit ds = true /\ digits_value 0 ds = v /\ v <= 255.
Proof.
  assert (Hd : forall ds, u8_digits 0 ds = Some v <->
                 forallb is_digit ds = true /\ digits_value 0 ds = v /\ v <= 255).
  { intros ds. rewrite u8_digits_value by lia.
    destruct (forallb is_digit ds); simpl.
    - destruct (N.leb_spec (digits_value 0 ds) 255) as [Hle|Hgt].
      + split; [intros E; injection E as <-; auto | intros (_ & <- & _); reflexivity].
      + split; [discriminate | intros (_ & <- & ?); lia].
    - split; [discriminate | intros (? & _); discriminate]. }
  unfold parse_u8. destruct s as [|c r].
  - split; [discriminate|].
    intros (ds & [H|H] & Hne & _); [subst; contradiction | discriminate].
  - destruct (N.eqb_spec c PLUS_CH) as [->|Hc].
    + destruct r as [|d r].
      * split; [discriminate|].
        intros (ds & [H|H] & Hne & Hdig & _).
        -- subst ds. vm_compute in Hdig. discriminate.
        -- injection H as <-. contradiction.
      * rewrite Hd. split.
        -- intros (Hdig & Hv & Hle). exists (d :: r). split; [right; reflexivity|].
           split; [discriminate|]. auto.
        -- intros (ds & [H|H] & Hne & Hdig & Hv & Hle).
           ++ subst ds. vm_compute in Hdig. discriminate.
           ++ injection H as <-. auto.
    + rewrite Hd. split.
      * intros (Hdig & Hv & Hle). exists (c :: r). split; [left; reflexivity|].
        split; [discriminate|]. auto.
      * intros (ds & [H|H] & Hne & Hdig & Hv & Hle).
        -- subst ds. auto.
        -- injection H as E _. contradiction.
Qed.

(** With a prefix free of [<] and [>] and a body free of [>], the priority
    field is the body between the delimiters: the text parses to
    [(v >> 3, v & 7)] when the body is an accepted [u8] [v] (so
    [<+013>], [<013>] and [<13>] give the same result) and is an error
    otherwise (an empty body, a sign or letter, or a value above 255). *)
Theorem parse_priority_delimited (p body s : text) :
  forallb (fun c => negb (c =? LT_CH) && negb (c =? GT_CH)) p = true ->
  forallb (fun c => negb (c =? GT_CH)) body = true ->
  match parse_u8 body with
  | Some v => parse_priority (p ++ [LT_CH] ++ body ++ [GT_CH] ++ s)
              = ROk (N.shiftr v 3, N.land v 7)
  | None => exists e, parse_priority (p ++ [LT_CH] ++ body ++ [GT_CH] ++ s) = RErr e
  end.
Proof.
  intros Hp Hb.
  assert (HpLT : forallb (fun x => negb (x =? LT_CH)) p = true).
  { rewrite forallb_forall in *. intros x Hx. specialize (Hp x Hx).
    now apply andb_prop in Hp as [? _]. }
  assert (HpGT : forallb (fun x => negb (x =? GT_CH)) p = true).
  { rewrite forallb_forall in *. intros x Hx. specialize (Hp x Hx).
    now apply andb_prop in Hp as [_ ?]. }
  assert (Hlt : find LT_CH (p ++ [LT_CH] ++ body ++ [GT_CH] ++ s) = Some (length p)).
  { rewrite find_app_absent by exact HpLT.
    change ([LT_CH] ++ body ++ [GT_CH] ++ s) with (LT_CH :: body ++ [GT_CH] ++ s).
    rewrite find_head. simpl. f_equal. lia. }
  assert (Hgt : find GT_CH (p ++ [LT_CH] ++ body ++ [GT_CH] ++ s)
                = Some (length p + S (length body))%nat).
  { rewrite find_app_absent by exact HpGT. simpl.
    change (LT_CH =? GT_CH) with false.
    rewrite find_app_absent by exact Hb.
    change ([GT_CH] ++ s) with (GT_CH :: s). rewrite find_head. simpl.
    f_equal. lia. }
  unfold parse_priority, ok_or. rewrite Hlt, Hgt. cbn [rbind].
  unfold slice.
  replace (length p + S (length body) <? S (length p))%nat with false
    by (symmetry; apply Nat.ltb_ge; lia).
  replace (length (p ++ [LT_CH] ++ body ++ [GT_CH] ++ s)
             <? length p + S (length body))%nat
    with false
    by (symmetry; apply Nat.ltb_ge; rewrite !length_app; simpl; lia).
  replace (length p + S (length body) - S (length p))%nat with (length body) by lia.
  replace (p ++ [LT_CH] ++ body ++ [GT_CH] ++ s)
    with ((p ++ [LT_CH]) ++ body ++ [GT_CH] ++ s)
    by (rewrite <- app_assoc; reflexivity).
  replace (S (length p)) with (length (p ++ [LT_CH])) by (rewrite length_app; simpl; lia).
  rewrite skipn_app_exact, firstn_app_exact. cbn [rbind].
  destruct (parse_u8 body); [reflexivity | eexists; reflexivity].
Qed.

Lemma parse_priority_delimited_witness :
  forallb (fun c => negb (c =? LT_CH) && negb (c =? GT_CH)) (txt "host: ") = true /\
  forallb (fun c => negb (c =? GT_CH)) (txt "+013") = true /\
  parse_priority (txt "host: " ++ [LT_CH] ++ txt "+013" ++ [GT_CH] ++ txt "up")
  = ROk (1, 5).
Proof.
  split; [reflexivity|]. split; [reflexivity|].
  exact (parse_priority_delimited (txt "host: ") (txt "+013") (txt "up")
           eq_refl eq_refl).
Defined.

(** ** Processing a sequence of messages *)

Lemma process_all_cons (now : DateTime) (io : io_outcome) (ip data : text)
    (msgs : list message) (s : Server) :
  process_all ((now, io, ip, data) :: msgs) s
  = process_all msgs (snd (handle_log now io ip data s)).
Proof. reflexivity. Qed.

Lemma stored_cons (now : DateTime) (io : io_outcome) (ip data : text)
    (msgs : list message) :
  stored ((now, io, ip, data) :: msgs)
  = match make_entry now ip data, io with ROk e, IoOk => [e] | _, _ => [] end
    ++ stored msgs.
Proof. reflexivity. Qed.

Lemma stored_length (msgs : list message) :
  (length (stored msgs) <= length msgs)%nat.
Proof.
  induction msgs as [|[[[now io] ip] data] msgs IH]; [simpl; lia|].
  rewrite stored_cons.
  destruct (make_entry now ip data), io; simpl; lia.
Qed.

(** One call of [handle_log]: the counters, and the file only grows. *)
Lemma handle_log_step (now : DateTime) (io : io_outcome) (ip data : text)
    (s : Server) :
  received (snd (handle_log now io ip data s)) = S (received s) /\
  written (snd (handle_log now io ip data s))
  = (written s + length (match make_entry now ip data, io with
                         | ROk e, IoOk => [e] | _, _ => [] end))%nat /\
  exists suffix,
    contents (output (snd (handle_log now io ip data s)))
    = contents (output s) ++ suffix.
Proof.
  unfold handle_log.
  destruct (make_entry now ip data) as [e| |]; [destruct io as [|m|m|k m]| |];
    cbn [snd received written output incr_received write_to_csv_io length];
    (split; [reflexivity|]); (split; [lia|]).
  - unfold write_to_csv. cbn [contents]. eexists. reflexivity.
  - exists []. rewrite app_nil_r. reflexivity.
  - exists []. cbn [contents]. rewrite app_nil_r. reflexivity.
  - eexists. reflexivity.
  - exists []. rewrite app_nil_r. reflexivity.
  - exists []. rewrite app_nil_r. reflexivity.
Qed.

(** Handling messages one after another: every message is counted as
    received; exactly the messages whose priority parses and whose write
    to the output file succeeds are counted as written (so "written" never
    overtakes "received"); and the output file only grows, whatever the
    file system does: what it held before stays as its prefix. *)
Theorem process_all_counters (msgs : list message) (s : Server) :
  received (process_all msgs s) = (received s + length msgs)%nat /\
  written (process_all msgs s) = (written s + length (stored msgs))%nat /\
  (length (stored msgs) <= length msgs)%nat /\
  exists suffix, contents (output (process_all msgs s)) = contents (output s) ++ suffix.
Proof.
  split; [|split; [|split; [apply stored_length|]]];
    revert s; induction msgs as [|[[[now io] ip] data] msgs IH]; intros s.
  - simpl. lia.
  - rewrite process_all_cons, IH.
    destruct (handle_log_step now io ip data s) as (Hr & _ & _).
    rewrite Hr. cbn [length]. lia.
  - simpl. lia.
  - rewrite process_all_cons, IH, stored_cons, length_app.
    destruct (handle_log_step now io ip data s) as (_ & Hw & _).
    rewrite Hw. lia.
  - exists []. rewrite app_nil_r. reflexivity.
  - rewrite process_all_cons.
    destruct (IH (snd (handle_log now io ip data s))) as [suf Hsuf].
    destruct (handle_log_step now io ip data s) as (_ & _ & [suf1 H1]).
    exists (suf1 ++ suf). rewrite Hsuf, H1, app_assoc. reflexivity.
Qed.

Lemma write_all_contents (es : list SysLogEntry) (st1 st2 : store) :
  contents st1 = contents st2 ->
  contents (write_all es st1) = contents (write_all es st2).
Proof.
  intros H. destruct es as [|e es]; [exact H|]. simpl.
  replace (write_to_csv e st1) with (write_to_csv e st2)
    by (unfold write_to_csv; rewrite H; reflexivity).
  reflexivity.
Qed.

Lemma process_all_output (msgs : list message) (s : Server) :
  forallb (fun m => negb (partial_write m)) msgs = true ->
  contents (output (process_all msgs s)) = contents (write_all (stored msgs) (output s)).
Proof.
  revert s. induction msgs as [|[[[now io] ip] data] msgs IH]; intros s H;
    [reflexivity|].
  cbn [forallb] in H. apply andb_prop in H as [Hm H].
  rewrite process_all_cons, stored_cons, (IH _ H).
  unfold handle_log.
  destruct (make_entry now ip data) as [e| |]; [destruct io as [|m|m|k m]| |];
    cbn [snd output incr_received write_to_csv_io app]; try reflexivity.
  - apply write_all_contents. reflexivity.
  - discriminate Hm.
Qed.

Lemma make_entry_u8 (now : DateTime) (ip data : text) (e : SysLogEntry) :
  make_entry now ip data = ROk e -> severity e <= 255 /\ facility e <= 255.
Proof.
  unfold make_entry, parse_priority, ok_or.
  destruct (find LT_CH data); [|discriminate]. destruct (find GT_CH data); [|discriminate].
  cbn [rbind]. destruct (slice _ _ _) as [sub| |]; try discriminate. cbn [rbind].
  destruct (parse_u8 sub) as [p|] eqn:Hp; [|discriminate]. cbn [rbind].
  intros H. injection H as <-. unfold build_entry. cbn [severity facility fst snd].
  change (N.div2 (N.div2 (N.div2 p))) with (N.shiftr p 3).
  destruct (fields_of_u8 p (parse_u8_le _ _ Hp)). lia.
Qed.

Lemma stored_u8 (msgs : list message) :
  Forall (fun e => severity e <= 255 /\ facility e <= 255) (stored msgs).
Proof.
  induction msgs as [|[[[now io] ip] data] msgs IH]; [constructor|].
  rewrite stored_cons.
  destruct (make_entry now ip data) as [e| |] eqn:E; [destruct io| |]; simpl;
    try exact IH.
  constructor; [exact (make_entry_u8 _ _ _ _ E) | exact IH].
Qed.

(** End to end: handle messages one after another on a server whose
    output file is empty or absent, where no write fails part-way
    through (opening the file or reading its metadata may fail).  Reading
    the file back with the CSV reader then gives exactly the entries of
    the messages whose priority parses and whose write succeeded, in
    order: a rejected message, or one whose open or metadata failed,
    leaves no row, and the header comes before the first stored row. *)
Theorem process_all_read_back (msgs : list message) (s : Server) :
  contents (output s) = [] ->
  forallb (fun m => negb (partial_write m)) msgs = true ->
  read_store (contents (output (process_all msgs s))) = Some (stored msgs).
Proof.
  intros H Hp. rewrite (process_all_output msgs s Hp), (write_all_from_empty _ _ H).
  destruct (stored msgs) as [|e es] eqn:E; [reflexivity|].
  unfold read_store, parse_csv.
  rewrite read_record by discriminate. rewrite read_rows.
  change (list_text_eqb header_fields header_fields) with true.
  apply decode_rows_fields. rewrite <- E. apply stored_u8.
Qed.

Definition sample_msgs : list message :=
  [(sample_time, MetadataFails "Permission denied (os error 13)",
    txt "10.0.0.4", txt "<13>first, lost");
   (sample_time, IoOk, txt "10.0.0.5", txt "<13>test message");
   (sample_time, IoOk, txt "10.0.0.6", txt "no priority here");
   (sample_time, OpenFails "No space left on device (os error 28)",
    txt "10.0.0.8", txt "<14>also lost");
   (sample_time, IoOk, txt "10.0.0.7", txt "<34>su: 'su root' failed")].

Lemma process_all_read_back_witness :
  contents (output empty_server) = [] /\
  forallb (fun m => negb (partial_write m)) sample_msgs = true /\
  read_store (contents (output (process_all sample_msgs empty_server)))
  = Some (stored sample_msgs).
Proof.
  assert (Hp : forallb (fun m => negb (partial_write m)) sample_msgs = true)
    by reflexivity.
  split; [reflexivity|]. split; [exact Hp|].
  exact (process_all_read_back sample_msgs empty_server eq_refl Hp).
Defined.

(** ** The event_time column *)

Lemma check_below (k : nat) (P : N -> bool) :
  forallb P (map N.of_nat (seq 0 k)) = true ->
  forall n, n < N.of_nat k -> P n = true.
Proof.
  intros H n Hn. rewrite forallb_forall in H. apply H.
  apply in_map_iff. exists (N.to_nat n). split; [apply N2Nat.id|].
  apply in_seq. lia.
Qed.

Definition digit_count (n : N) : nat :=
  if n <? 10 then 1%nat else if n <? 100 then 2%nat
  else if n <? 1000 then 3%nat else 4%nat.

Definition dec_width_ok (n : N) : bool :=
  Nat.leb (length (dec n)) (digit_count n) && forallb is_digit (dec n).

Lemma dec_width (n : N) : n < 10000 -> dec_width_ok n = true.
Proof.
  apply (check_below (N.to_nat 10000)). vm_compute. reflexivity.
Qed.

Lemma pad_width (w : nat) (n : N) :
  (length (dec n) <= w)%nat -> forallb is_digit (dec n) = true ->
  length (pad w n) = w /\ forallb is_digit (pad w n) = true.
Proof.
  intros Hl Hd. unfold pad. rewrite length_app, repeat_length, forallb_app, Hd.
  split; [lia|]. rewrite andb_true_r.
  apply forallb_forall. intros x Hx. apply repeat_spec in Hx. subst. reflexivity.
Qed.

Lemma pad_digits (w : nat) (n : N) :
  n < 10000 -> (n < 10 \/ (2 <= w)%nat) -> (n < 100 \/ (3 <= w)%nat) ->
  (n < 1000 \/ (4 <= w)%nat) -> (1 <= w)%nat ->
  length (pad w n) = w /\ forallb is_digit (pad w n) = true.
Proof.
  intros Hn H2 H3 H4 H1. pose proof (dec_width n Hn) as Hw.
  unfold dec_width_ok in Hw. apply andb_prop in Hw as [Hl Hd].
  apply pad_width; [|exact Hd].
  apply Nat.leb_le in Hl. unfold digit_count in Hl.
  destruct (N.ltb_spec n 10); [lia|].
  destruct (N.ltb_spec n 100); [lia|].
  destruct (N.ltb_spec n 1000); lia.
Qed.

Lemma digits_no_quote (l : text) :
  forallb is_digit l = true -> existsb requires_quote l = false.
Proof.
  induction l as [|c l IH]; simpl; [reflexivity|].
  intros H. apply andb_prop in H as [Hc Hl]. rewrite IH by exact Hl.
  unfold is_digit in Hc. apply andb_prop in Hc as [H1 H2].
  apply N.leb_le in H1. apply N.leb_le in H2.
  unfold requires_quote, COMMA_CH, QUOTE_CH, CR_CH, NL_CH.
  destruct (N.eqb_spec c 44); [lia|]. destruct (N.eqb_spec c 34); [lia|].
  destruct (N.eqb_spec c 13); [lia|]. destruct (N.eqb_spec c 10); [lia|].
  reflexivity.
Qed.

(** For a year up to 9999 and in-range date, time and millisecond fields,
    the event_time text is always 23 characters long
    ([YYYY-MM-DD HH:MM:SS.mmm]) and holds no comma, quote or line break, so
    the CSV writer never quotes that column. *)
Theorem format_time_fixed_width (t : DateTime) :
  year t <= 9999 -> month t <= 99 -> day t <= 99 -> hour t <= 99 ->
  minute t <= 99 -> second t <= 99 -> millis t <= 999 ->
  length (format_time t) = 23%nat /\ csv_field (format_time t) = format_time t.
Proof.
  intros Hy Hmo Hd Hh Hmi Hs Hms.
  destruct (pad_digits 4 (year t)) as [Ly Dy]; try lia.
  destruct (pad_digits 2 (month t)) as [Lmo Dmo]; try lia.
  destruct (pad_digits 2 (day t)) as [Ld Dd]; try lia.
  destruct (pad_digits 2 (hour t)) as [Lh Dh]; try lia.
  destruct (pad_digits 2 (minute t)) as [Lmi Dmi]; try lia.
  destruct (pad_digits 2 (second t)) as [Ls Ds]; try lia.
  destruct (pad_digits 3 (millis t)) as [Lms Dms]; try lia.
  unfold format_time. split.
  - rewrite !length_app. rewrite Ly, Lmo, Ld, Lh, Lmi, Ls, Lms. reflexivity.
  - unfold csv_field. rewrite !existsb_app.
    rewrite (digits_no_quote _ Dy), (digits_no_quote _ Dmo), (digits_no_quote _ Dd),
      (digits_no_quote _ Dh), (digits_no_quote _ Dmi), (digits_no_quote _ Ds),
      (digits_no_quote _ Dms). reflexivity.
Qed.

Lemma format_time_fixed_width_witness :
  year sample_time <= 9999 /\ month sample_time <= 99 /\ day sample_time <= 99 /\
  hour sample_time <= 99 /\ minute sample_time <= 99 /\ second sample_time <= 99 /\
  millis sample_time <= 999 /\
  length (format_time sample_time) = 23%nat /\
  csv_field (format_time sample_time) = format_time sample_time.
Proof.
  cbn [year month day hour minute second millis sample_time].
  repeat (split; [lia|]).
  apply format_time_fixed_width; cbn; lia.
Defined.

(** ** The receiver: UTF-8 decoding and the receive buffer *)

(** Settles every comparison of the goal, closing the branches that the
    arithmetic facts in the context rule out. *)
Ltac settle_cmps :=
  repeat match goal with
  | |- context [?a =? ?b] => destruct (N.eqb_spec a b); try lia
  | |- context [?a <? ?b] => destruct (N.ltb_spec a b); try lia
  | |- context [?a <=? ?b] => destruct (N.leb_spec a b); try lia
  end.

Lemma div_64_facts (c : N) : c = 64 * (c / 64) + c mod 64 /\ c mod 64 < 64.
Proof.
  split; [apply N.div_mod; discriminate | apply N.mod_lt; discriminate].
Qed.

(** Names the quotients and remainders by 64 that the UTF-8 bytes of
    [c] are made of, with the equations relating them. *)
Ltac utf8_prep c :=
  destruct (div_64_facts c) as [E0 M0];
  destruct (div_64_facts (c / 64)) as [E1 M1];
  destruct (div_64_facts (c / 64 / 64)) as [E2 M2];
  assert (D2 : c / 4096 = c / 64 / 64)
    by (rewrite N.Div0.div_div; reflexivity);
  assert (D3 : c / 262144 = c / 64 / 64 / 64)
    by (rewrite !N.Div0.div_div; reflexivity);
  rewrite D2, D3;
  remember (c / 64 / 64 / 64) as q3; remember ((c / 64 / 64) mod 64) as m2;
  remember (c / 64 / 64) as q2; remember ((c / 64) mod 64) as m1;
  remember (c / 64) as q1; remember (c mod 64) as m0.

Lemma from_utf8_encode_char (c : N) (r : list N) :
  scalar c -> from_utf8 (encode_char c ++ r) = option_map (cons c) (from_utf8 r).
Proof.
  intros Hc. unfold scalar in Hc. unfold encode_char. utf8_prep c.
  destruct (N.ltb_spec c 128).
  - cbn [app from_utf8]. settle_cmps. reflexivity.
  - destruct (N.ltb_spec c 2048).
    + cbn [app from_utf8]. unfold cont_byte. settle_cmps; cbn [andb];
        f_equal; f_equal; lia.
    + destruct (N.ltb_spec c 65536).
      * cbn [app from_utf8]. unfold cont_byte. settle_cmps; cbn [andb];
          f_equal; f_equal; lia.
      * cbn [app from_utf8]. unfold cont_byte. settle_cmps; cbn [andb];
          f_equal; f_equal; lia.
Qed.

Lemma from_utf8_to_utf8_app (t : text) (r : list N) :
  Forall scalar t -> from_utf8 (to_utf8 t ++ r) = option_map (app t) (from_utf8 r).
Proof.
  induction 1 as [|c t Hc _ IH].
  - simpl. destruct (from_utf8 r); reflexivity.
  - unfold to_utf8. cbn [flat_map]. fold (to_utf8 t).
    rewrite <- app_assoc, from_utf8_encode_char by exact Hc. rewrite IH.
    destruct (from_utf8 r); reflexivity.
Qed.

Lemma from_utf8_partial_char (c : N) (k : nat) :
  scalar c -> (0 < k < length (encode_char c))%nat ->
  from_utf8 (firstn k (encode_char c)) = None.
Proof.
  intros Hc Hk. unfold scalar in Hc. unfold encode_char in *. utf8_prep c.
  destruct (N.ltb_spec c 128); [simpl in Hk; lia|].
  destruct (N.ltb_spec c 2048);
    [|destruct (N.ltb_spec c 65536)]; simpl in Hk;
    (destruct k as [|[|[|[|k]]]]; try lia);
    cbn [firstn from_utf8]; unfold cont_byte;
    repeat (settle_cmps; cbn [andb from_utf8 option_map]); try reflexivity.
Qed.

Lemma from_utf8_ascii (l : list N) :
  Forall (fun b => b < 128) l -> from_utf8 l = Some l.
Proof.
  induction 1 as [|b l Hb _ IH]; [reflexivity|].
  cbn [from_utf8]. replace (b <? 128) with true by (symmetry; apply N.ltb_lt; exact Hb).
  rewrite IH. reflexivity.
Qed.

Lemma Forall_firstn_N (P : N -> Prop) (k : nat) (l : list N) :
  Forall P l -> Forall P (firstn k l).
Proof.
  revert l. induction k as [|k IH]; intros l H; [constructor|].
  destruct H as [|x l Hx Hl]; [constructor|]. simpl. constructor; auto.
Qed.

(** A datagram carrying the UTF-8 encoding of a text that fits in the
    8192-byte buffer is handed to the queue as exactly that text, paired
    with the sender's address. *)
Theorem receive_utf8_text (addr t : text) :
  Forall scalar t -> (length (to_utf8 t) <= BUF_SIZE)%nat ->
  receive (Datagram addr (to_utf8 t)) = [(addr, t)].
Proof.
  intros Ht Hl. unfold receive. rewrite firstn_all2 by exact Hl.
  rewrite <- (app_nil_r (to_utf8 t)), from_utf8_to_utf8_app by exact Ht.
  cbn [from_utf8 option_map]. rewrite app_nil_r. reflexivity.
Qed.

Definition sample_text : text := [104; 233; 8364; 128512].

Lemma receive_utf8_text_witness :
  Forall scalar sample_text /\ (length (to_utf8 sample_text) <= BUF_SIZE)%nat /\
  receive (Datagram (txt "10.0.0.1") (to_utf8 sample_text))
  = [(txt "10.0.0.1", sample_text)].
Proof.
  assert (Hs : Forall scalar sample_text)
    by (repeat constructor; unfold scalar; lia).
  assert (Hl : (length (to_utf8 sample_text) <= BUF_SIZE)%nat)
    by (apply Nat.leb_le; vm_compute; reflexivity).
  split; [exact Hs|]. split; [exact Hl|].
  exact (receive_utf8_text (txt "10.0.0.1") sample_text Hs Hl).
Defined.

(** A datagram of ASCII bytes of any length is handed to the queue cut to
    its first 8192 characters. *)
Theorem receive_ascii_truncated (addr : text) (bytes : list N) :
  Forall (fun b => b < 128) bytes ->
  receive (Datagram addr bytes) = [(addr, firstn BUF_SIZE bytes)].
Proof.
  intros H. unfold receive. rewrite from_utf8_ascii; [reflexivity|].
  apply Forall_firstn_N. exact H.
Qed.

Lemma receive_ascii_truncated_witness :
  Forall (fun b => b < 128) (repeat 97 (N.to_nat 9000)) /\
  receive (Datagram (txt "10.0.0.1") (repeat 97 (N.to_nat 9000)))
  = [(txt "10.0.0.1", firstn BUF_SIZE (repeat 97 (N.to_nat 9000)))].
Proof.
  assert (H : Forall (fun b => b < 128) (repeat 97 (N.to_nat 9000))).
  { apply Forall_forall. intros x Hx. apply repeat_spec in Hx. lia. }
  split; [exact H|].
  exact (receive_ascii_truncated (txt "10.0.0.1") _ H).
Defined.

(** A datagram longer than the buffer whose 8192-byte cut falls inside the
    encoding of a multi-byte character is dropped entirely: the cut bytes
    are not valid UTF-8, so nothing is queued. *)
Theorem receive_split_char_dropped (addr p s : text) (c : N) :
  Forall scalar p -> scalar c ->
  (length (to_utf8 p) < BUF_SIZE < length (to_utf8 p) + length (encode_char c))%nat ->
  receive (Datagram addr (to_utf8 (p ++ c :: s))) = [].
Proof.
  intros Hp Hc Hl. unfold receive, to_utf8.
  rewrite flat_map_app. cbn [flat_map]. fold (to_utf8 p). fold (to_utf8 s).
  rewrite firstn_app, firstn_all2 by lia.
  rewrite firstn_app.
  replace (BUF_SIZE - length (to_utf8 p) - length (encode_char c))%nat with 0%nat
    by lia.
  rewrite firstn_O, app_nil_r.
  rewrite from_utf8_to_utf8_app by exact Hp.
  rewrite from_utf8_partial_char by (exact Hc || lia). reflexivity.
Qed.

(** 8191 ASCII letters: one byte short of filling the buffer. *)
Definition long_prefix : text := repeat 97 (N.to_nat 8191).

Lemma receive_split_char_dropped_witness :
  Forall scalar (long_prefix) /\ scalar 233 /\
  (length (to_utf8 (long_prefix)) < BUF_SIZE <
   length (to_utf8 (long_prefix)) + length (encode_char 233))%nat /\
  receive (Datagram (txt "10.0.0.1")
             (to_utf8 (long_prefix ++ [233; 33]))) = [].
Proof.
  assert (Hp : Forall scalar (long_prefix)).
  { apply Forall_forall. intros x Hx. apply repeat_spec in Hx.
    subst x. unfold scalar. lia. }
  assert (Hc : scalar 233) by (unfold scalar; lia).
  assert (Hl : (length (to_utf8 (long_prefix)) < BUF_SIZE <
               length (to_utf8 (long_prefix)) +
               length (encode_char 233))%nat).
  { split; apply Nat.ltb_lt; vm_compute; reflexivity. }
  split; [exact Hp|]. split; [exact Hc|]. split; [exact Hl|].
  exact (receive_split_char_dropped (txt "10.0.0.1") _ [33] 233 Hp Hc Hl).
Defined.

(** ** Draining the ingestion queue *)

Lemma channel_drain_measure (cap : nat) (n : nat) :
  (0 < cap)%nat ->
  forall s,
  (2 * length (Channel.pending s) + length (Channel.buffer s) <= n)%nat ->
  exists s', Channel.steps cap s s' /\
             Channel.buffer s' = [] /\ Channel.pending s' = [].
Proof.
  intros Hcap. induction n as [|n IH]; intros s Hm.
  - exists s. split; [apply Channel.steps_refl|].
    destruct (Channel.buffer s), (Channel.pending s); simpl in Hm;
      split; (reflexivity || lia).
  - destruct (Channel.buffer s) as [|x b] eqn:Eb.
    + destruct (Channel.pending s) as [|y p] eqn:Ep.
      * exists s. split; [apply Channel.steps_refl | auto].
      * set (s1 := {| Channel.pending := p; Channel.buffer := [y];
                      Channel.delivered := Channel.delivered s |}).
        assert (Hs : Channel.send_step cap s = Some s1).
        { unfold Channel.send_step. rewrite Ep, Eb. simpl.
          replace (0 <? cap)%nat with true by (symmetry; apply Nat.ltb_lt; exact Hcap).
          reflexivity. }
        destruct (IH s1) as (s' & Hst & Hb & Hp); [cbn; simpl in Hm; lia|].
        exists s'. split; [|auto].
        apply (Channel.steps_cons cap s s1 s'); [apply Channel.step_send; exact Hs | exact Hst].
    + set (s1 := {| Channel.pending := Channel.pending s; Channel.buffer := b;
                    Channel.delivered := Channel.delivered s ++ [x] |}).
      assert (Hs : Channel.recv_step s = Some s1).
      { unfold Channel.recv_step. rewrite Eb. reflexivity. }
      destruct (IH s1) as (s' & Hst & Hb & Hp); [cbn; simpl in Hm; lia|].
      exists s'. split; [|auto].
      apply (Channel.steps_cons cap s s1 s'); [apply Channel.step_recv; exact Hs | exact Hst].
Qed.

Lemma steps_reachable (cap : nat) (items : list Channel.item) (s s' : Channel.Sys) :
  Channel.steps cap s s' -> Channel.reachable cap items s ->
  Channel.reachable cap items s'.
Proof.
  induction 1 as [s|s1 s2 s3 H _ IH]; intros Hr; [exact Hr|].
  apply IH. exact (Channel.reach_step cap items s1 s2 Hr H).
Qed.

(** With a queue of positive capacity, from every state the system can
    reach, the processor loop's receives and the receiver task's pending
    sends can run on from that state until every datagram has been handed
    to the processor, in arrival order, with nothing left buffered or
    waiting: the bounded queue never deadlocks. *)
Theorem channel_drains (cap : nat) (items : list Channel.item) (s : Channel.Sys) :
  (0 < cap)%nat -> Channel.reachable cap items s ->
  exists s', Channel.steps cap s s' /\
             Channel.delivered s' = items /\
             Channel.buffer s' = [] /\ Channel.pending s' = [].
Proof.
  intros Hcap Hr.
  destruct (channel_drain_measure cap
              (2 * length (Channel.pending s) + length (Channel.buffer s))
              Hcap s (le_n _)) as (s' & Hst & Hb & Hp).
  exists s'. split; [exact Hst|]. split; [|auto].
  destruct (channel_invariant cap items s' (steps_reachable cap items s s' Hst Hr))
    as [Hi _].
  rewrite Hb, Hp in Hi. rewrite !app_nil_r in Hi. symmetry. exact Hi.
Qed.

Lemma channel_drains_witness :
  (0 < 1)%nat /\ Channel.reachable 1 sample_items sent_one /\
  exists s', Channel.steps 1 sent_one s' /\
             Channel.delivered s' = sample_items /\
             Channel.buffer s' = [] /\ Channel.pending s' = [].
Proof.
  assert (Hc : (0 < 1)%nat) by lia.
  split; [exact Hc|]. split; [exact sent_one_reachable|].
  exact (channel_drains 1 sample_items sent_one Hc sent_one_reachable).
Defined.
